(** * CryptoStore: the encrypting store wrapper of stores/cryptostore.go

    A shallow embedding of [CryptoStore] and [CryptoMsgStore] and the
    properties of the encryption layer: sealed record layout, round trip,
    nonce rotation, pass-through of empty payloads and the frame of the
    intercepted store operations.

    Executions are sequential: one call runs to completion before the next
    starts.  The atomic counters and the mutex are kept in the state and
    stepped as the code steps them, so the counter protocol is the one of
    the source; interleavings of several goroutines are outside the model. *)

From Stdlib Require Import ZArith Strings.Byte.
From stdpp Require Import base tactics option list gmap strings finite vector infinite.

Local Open Scope Z_scope.
Local Open Scope nat_scope.

(** ** Go values *)

(** A Go [[]byte]: [None] is the nil slice, [Some l] a non-nil slice with
    elements [l].  [len] does not tell the two apart; [== nil] does. *)
Definition bytes : Type := option (list byte).

Global Instance byte_eq_dec : EqDecision byte := Byte.byte_eq_dec.

(** The 256 bytes. *)
Definition all_bytes : list byte := omap Byte.of_nat (seq 0 256).

Global Instance byte_finite : Finite byte.
Proof.
  refine {| enum := all_bytes |}.
  - apply (bool_decide_unpack _). vm_compute. exact I.
  - intros b. apply list_elem_of_lookup. exists (Byte.to_nat b). by destruct b.
Defined.

Definition len (b : bytes) : nat := length (default [] b).

Definition elems (b : bytes) : list byte := default [] b.

(** [make([]byte, n)]: [n] zero bytes. *)
Definition make (n : nat) : list byte := replicate n x00.

(** [copy(dst, src)] on the elements of [dst]: the first
    [min (len dst) (len src)] elements are overwritten. *)
Definition copy (dst src : list byte) : list byte :=
  take (length dst) src ++ drop (length src) dst.

(** [copy(dst[off:], src)] seen from the whole of [dst]; [off <= len dst]. *)
Definition copy_at (off : nat) (dst src : list byte) : list byte :=
  take off dst ++ copy (drop off dst) src.

(** Two's complement wrap-around of a 64-bit signed integer. *)
Definition wrap64 (z : Z) : Z := ((z + 2 ^ 63) mod 2 ^ 64 - 2 ^ 63)%Z.

(** [atomic.AddInt64(&x, d)]: the new value. *)
Definition AddInt64 (x d : Z) : Z := wrap64 (x + d).
Global Arguments AddInt64 : simpl never.

(** Error values of the libraries and of the wrapped store: those of
    chacha20poly1305 and io, and any other by its message. *)
Inductive lib_error : Type :=
| ErrBadKeyLength
| ErrOpen
| EOF
| ErrUnexpectedEOF
| ErrOther (msg : string).

(** Go [error] values: the one this package declares, and those it passes
    on.  Errors are told apart by identity, so no library returns
    [ErrCryptoStoreRequiresKey].  A nil [error] is [None : option error]. *)
Inductive error : Type :=
| ErrCryptoStoreRequiresKey
| LibError (e : lib_error).

Global Instance lib_error_eq_dec : EqDecision lib_error.
Proof. solve_decision. Defined.

Global Instance error_eq_dec : EqDecision error.
Proof. solve_decision. Defined.

(** What a Go function that may panic or not return does. [Spin] stands for
    a call that is still looping when the fuel of the model runs out. *)
Inductive outcome (A : Type) : Type :=
| Done (a : A)
| Panic (msg : string)
| Spin.
Global Arguments Done {A} a.
Global Arguments Panic {A} msg.
Global Arguments Spin {A}.

Global Instance outcome_bind : MBind outcome := λ A B f x,
  match x with
  | Done a => f a
  | Panic msg => Panic msg
  | Spin => Spin
  end.

(** ** cipher.AEAD *)

(** The [cipher.AEAD] interface.  [Seal nonce plaintext ad] is the sealed
    text that Go's [Seal(dst, nonce, plaintext, ad)] appends to [dst];
    [Open nonce ciphertext ad] is the pair Go's [Open(nil, ...)] returns. *)
Record AEAD : Type := {
  NonceSize : nat;
  Overhead : nat;
  Seal : list byte → list byte → list byte → list byte;
  Open : list byte → list byte → list byte → bytes * option error
}.

(** The documented contract of an AEAD: the sealed text is [Overhead] bytes
    longer than the plaintext, and opening what was sealed under the same
    nonce gives the plaintext back. *)
Record AEAD_ok (a : AEAD) : Prop := {
  Seal_length : ∀ n p ad,
    length n = NonceSize a → length (Seal a n p ad) = length p + Overhead a;
  Open_Seal : ∀ n p ad,
    length n = NonceSize a →
    ∃ r, Open a n (Seal a n p ad) ad = (r, None) ∧ elems r = p
}.

(** The two library calls of [NewCryptoStore]: [sha256] ([h.Write(key)]
    then [h.Sum(nil)]) and [chacha20poly1305.New]. *)
Record Primitives : Type := {
  sha256_Sum : list byte → list byte;
  chacha20poly1305_New : list byte → lib_error + AEAD
}.

(** A digest has 32 bytes; a 32-byte key is accepted and gives an AEAD that
    keeps its contract. *)
Record Primitives_ok (P : Primitives) : Prop := {
  sha256_size : ∀ k, length (sha256_Sum P k) = 32;
  New_key_size : ∀ k,
    length k = 32 → ∃ a, chacha20poly1305_New P k = inr a ∧ AEAD_ok a
}.

(** ** crypto/rand *)

(** What [rand.Reader] delivers to one [io.ReadFull] call. *)
Inductive read_outcome : Type :=
| ReadBytes (bs : list byte)
| ReadFail (e : lib_error).

(** [io.ReadFull(rand.Reader, buf)] with [len buf = n]: the bytes read and
    the error; the reader moves on.  Fewer than [n] bytes is an error, and
    an empty buffer is full without a read. *)
Definition ReadFull (n : nat) (r : list read_outcome)
  : (list byte * option error) * list read_outcome :=
  match n, r with
  | 0, _ => (([], None), r)
  | _, [] => ((make n, Some (LibError EOF)), [])
  | _, ReadFail e :: r' => ((make n, Some (LibError e)), r')
  | _, ReadBytes bs :: r' =>
    if decide (n ≤ length bs) then ((take n bs, None), r')
    else ((copy (make n) bs,
           Some (LibError (if decide (bs = []) then EOF else ErrUnexpectedEOF))), r')
  end.

(** ** CryptoStore *)

(** [csDefaultMaxEncryptCallsPerNonce = int64(0x100000000) - 10000]. *)
Definition csDefaultMaxEncryptCallsPerNonce : Z := (4294967296 - 10000)%Z.

(** What the history of a store records: a nonce was installed, or a
    ciphertext was sealed under [nonce] by a call whose counter read
    [count].  The history is ghost state: no function reads it. *)
Inductive event : Type :=
| Installed (nonce : list byte)
| Sealed (nonce : list byte) (count : Z).

Section CryptoStore.

(** The handle of the wrapped [Store]. *)
Context {SH : Type}.

(** The package variable [csMaxEncryptCallsPerNonce]. *)
Variable csMaxEncryptCallsPerNonce : Z.

(** The struct.  [mu] is the embedded [sync.Mutex] ([true]: held); Go's
    [int] fields are lengths and are kept as [nat]. *)
Record CryptoStore : Type := {
  inEncrypt : Z;
  encrypted : Z;
  mu : bool;
  Store : SH;
  gcm : AEAD;
  nonce : list byte;
  nonceSize : nat;
  cryptoOverhead : nat
}.

Definition set_inEncrypt (v : Z) (cs : CryptoStore) : CryptoStore :=
  {| inEncrypt := v; encrypted := encrypted cs; mu := mu cs; Store := Store cs;
     gcm := gcm cs; nonce := nonce cs; nonceSize := nonceSize cs;
     cryptoOverhead := cryptoOverhead cs |}.

Definition set_encrypted (v : Z) (cs : CryptoStore) : CryptoStore :=
  {| inEncrypt := inEncrypt cs; encrypted := v; mu := mu cs; Store := Store cs;
     gcm := gcm cs; nonce := nonce cs; nonceSize := nonceSize cs;
     cryptoOverhead := cryptoOverhead cs |}.

Definition set_mu (v : bool) (cs : CryptoStore) : CryptoStore :=
  {| inEncrypt := inEncrypt cs; encrypted := encrypted cs; mu := v; Store := Store cs;
     gcm := gcm cs; nonce := nonce cs; nonceSize := nonceSize cs;
     cryptoOverhead := cryptoOverhead cs |}.

Definition set_nonce (v : list byte) (cs : CryptoStore) : CryptoStore :=
  {| inEncrypt := inEncrypt cs; encrypted := encrypted cs; mu := mu cs; Store := Store cs;
     gcm := gcm cs; nonce := v; nonceSize := nonceSize cs;
     cryptoOverhead := cryptoOverhead cs |}.

(** A store together with the random source it draws from and its
    history. *)
Record Machine : Type := {
  cstore : CryptoStore;
  rand_Reader : list read_outcome;
  history : list event
}.

Definition with_cstore (f : CryptoStore → CryptoStore) (m : Machine) : Machine :=
  {| cstore := f (cstore m); rand_Reader := rand_Reader m; history := history m |}.

Definition record (e : event) (m : Machine) : Machine :=
  {| cstore := cstore m; rand_Reader := rand_Reader m; history := history m ++ [e] |}.

(** [cs.generateNewNonce()] *)
Definition generateNewNonce (m : Machine) : option error * Machine :=
  let '((nonce, err), r) := ReadFull (NonceSize (gcm (cstore m))) (rand_Reader m) in
  let m := {| cstore := cstore m; rand_Reader := r; history := history m |} in
  match err with
  | Some e => (Some e, m)
  | None =>
    let m := with_cstore (set_nonce nonce) m in
    let m := with_cstore (set_encrypted 0) m in
    (None, record (Installed nonce) m)
  end.

(** Lines 151-157 of [encrypt]: the buffer, the in-place [Seal] and the
    returned slice.  [count] is the value the call read from the counter.
    [Seal] appends to [dst[:0]], which has room for
    [cryptoOverhead + len(data)] bytes inside [buf]; a longer sealed text
    would go to a new array and leave [buf] as it is.  chacha20poly1305
    panics on a nonce that is not [NonceSize] long. *)
Definition seal (count : Z) (data : bytes) (m : Machine)
  : outcome ((bytes * option error) * Machine) :=
  let cs := cstore m in
  let buf := make (nonceSize cs + cryptoOverhead cs + len data) in
  let buf := copy buf (nonce cs) in
  let buf := copy_at (nonceSize cs) buf (elems data) in
  let dst := take (len data) (drop (nonceSize cs) buf) in
  if decide (length (nonce cs) = NonceSize (gcm cs)) then
    let ret := Seal (gcm cs) (nonce cs) dst [] in
    let buf :=
      if decide (length ret ≤ cryptoOverhead cs + len data)
      then take (nonceSize cs) buf ++ ret ++ drop (nonceSize cs + length ret) buf
      else buf in
    let m := record (Sealed (nonce cs) count) m in
    let m := with_cstore (λ cs, set_inEncrypt (AddInt64 (inEncrypt cs) (-1)) cs) m in
    if decide (nonceSize cs + length ret ≤ length buf)
    then Done ((Some (take (nonceSize cs + length ret) buf), None), m)
    else Panic "slice bounds out of range"
  else Panic "chacha20poly1305: bad nonce length passed to Seal".

(** [cs.encrypt(data)].  One unit of fuel is one pass through the label
    [CHECK_ENCRYPTED_COUNT]; [cs.Lock()] on a held mutex and the wait for
    [inEncrypt] to drain do not return when no other goroutine runs. *)
Fixpoint encrypt (fuel : nat) (data : bytes) (m : Machine)
  : outcome ((bytes * option error) * Machine) :=
  match fuel with
  | 0 => Spin
  | S fuel =>
    let m := with_cstore (λ cs, set_inEncrypt (AddInt64 (inEncrypt cs) 1) cs) m in
    let count := AddInt64 (encrypted (cstore m)) 1 in
    let m := with_cstore (set_encrypted count) m in
    if decide (count >= csMaxEncryptCallsPerNonce)%Z then
      let m := with_cstore (λ cs, set_inEncrypt (AddInt64 (inEncrypt cs) (-1)) cs) m in
      if mu (cstore m) then Spin else
      let m := with_cstore (set_mu true) m in
      if decide (count = csMaxEncryptCallsPerNonce) then
        if decide (inEncrypt (cstore m) > 0)%Z then Spin else
        match generateNewNonce m with
        | (Some err, m) => Done ((None, Some err), with_cstore (set_mu false) m)
        | (None, m) =>
          let m := with_cstore (set_mu false) m in
          let m := with_cstore (λ cs, set_inEncrypt (AddInt64 (inEncrypt cs) 1) cs) m in
          seal count data m
        end
      else
        let m := with_cstore (set_mu false) m in
        encrypt fuel data m
    else seal count data m
  end.

(** [cs.decrypt(data)].  Both slice expressions need
    [nonceSize <= len(data)]: [data[:nonceSize]] panics beyond the capacity
    of [data], and within it [data[nonceSize:]] panics beyond its length. *)
Definition decrypt (cs : CryptoStore) (data : bytes) : outcome (bytes * option error) :=
  if decide (nonceSize cs ≤ len data)
  then Done (Open (gcm cs) (take (nonceSize cs) (elems data)) (drop (nonceSize cs) (elems data)) [])
  else Panic "slice bounds out of range".

(** ** Vocabulary of the statements *)

(** The maximum is a positive [int64]. *)
Definition maximum_ok : Prop := (0 < csMaxEncryptCallsPerNonce < 2 ^ 63)%Z.

(** A call that passes the label at most [fuel] times does not take the
    counter beyond the largest [int64]. *)
Definition no_overflow (fuel : nat) : Prop :=
  (csMaxEncryptCallsPerNonce + Z.of_nat fuel < 2 ^ 63)%Z.

(** A store between two calls: no call in flight, the mutex free, the
    counter between zero and the maximum, and the cipher data as
    [NewCryptoStore] set them. *)
Record cs_wf (cs : CryptoStore) : Prop := {
  wf_inEncrypt : inEncrypt cs = 0%Z;
  wf_mu : mu cs = false;
  wf_encrypted : (0 ≤ encrypted cs ≤ csMaxEncryptCallsPerNonce)%Z;
  wf_nonce : length (nonce cs) = nonceSize cs;
  wf_nonceSize : nonceSize cs = NonceSize (gcm cs);
  wf_cryptoOverhead : cryptoOverhead cs = Overhead (gcm cs);
  wf_gcm : AEAD_ok (gcm cs)
}.

(** A store whose counter is still below the maximum. *)
Definition cs_ok (cs : CryptoStore) : Prop :=
  cs_wf cs ∧ (encrypted cs < csMaxEncryptCallsPerNonce)%Z.

(** Calls one after the other, each with its fuel and payload; a call that
    does not return ends the run. *)
Fixpoint encrypt_all (calls : list (nat * bytes)) (m : Machine) : Machine :=
  match calls with
  | [] => m
  | (fuel, data) :: calls =>
    match encrypt fuel data m with
    | Done (_, m') => encrypt_all calls m'
    | _ => m
    end
  end.

(** The number of seals under each nonce, the active nonce first; the last
    entry counts the seals before the first installation. *)
Definition tally (acc : list nat) (e : event) : list nat :=
  match e, acc with
  | Installed _, _ => 0 :: acc
  | Sealed _ _, c :: acc => S c :: acc
  | Sealed _ _, [] => [1]
  end.

Definition seals_per_nonce (h : list event) : list nat := fold_left tally h [0].

(** The nonce that was installed last. *)
Definition installed (e : event) : option (list byte) :=
  match e with
  | Installed n => Some n
  | Sealed _ _ => None
  end.

Definition active_nonce (h : list event) : option (list byte) := last (omap installed h).

(** Every seal was made under the nonce active at that time, by a call
    that read a counter below the maximum, or by the call that read the
    maximum itself and installed that nonce just before sealing. *)
Definition seals_within_maximum (h : list event) : Prop :=
  ∀ h1 h2 n count, h = h1 ++ Sealed n count :: h2 →
    active_nonce h1 = Some n ∧
    ((0 < count < csMaxEncryptCallsPerNonce)%Z ∨
     (count = csMaxEncryptCallsPerNonce ∧ ∃ h0, h1 = h0 ++ [Installed n])).

(** What holds of a store and its history between two calls. *)
Record machine_inv (m : Machine) : Prop := {
  inv_wf : cs_wf (cstore m);
  inv_active : active_nonce (history m) = Some (nonce (cstore m));
  inv_tally : ∃ c t, seals_per_nonce (history m) = c :: t ∧
    (Z.of_nat c ≤ Z.min (encrypted (cstore m) + 1) csMaxEncryptCallsPerNonce)%Z ∧
    Forall (λ u, (Z.of_nat u ≤ csMaxEncryptCallsPerNonce)%Z) t;
  inv_seals : seals_within_maximum (history m)
}.

(** ** The wrapped store and the objects it hands out *)

(** Objects live in heaps and are named by their address; a nil pointer is
    [None : option loc]. *)
Definition loc : Type := positive.

(** [pb.MsgProto] of go-nats-streaming, the message envelope. *)
Record MsgProto : Type := {
  Sequence : N;
  Subject : string;
  Reply : string;
  Data : bytes;
  Timestamp : Z;
  Redelivered : bool;
  CRC32 : N
}.

Definition set_Data (v : bytes) (m : MsgProto) : MsgProto :=
  {| Sequence := Sequence m; Subject := Subject m; Reply := Reply m; Data := v;
     Timestamp := Timestamp m; Redelivered := Redelivered m; CRC32 := CRC32 m |}.

(** The handles of the wrapped implementation: its message stores and its
    subscription stores, and the parts of a recovered state that this layer
    never looks at. *)
Context {MH SubStore ServerInfo Client RecoveredSubscription : Type}.

(** A value of the [MsgStore] interface: a message store of the wrapped
    implementation, or the struct [CryptoMsgStore] with its embedded
    [MsgStore] and its [cs] pointer. *)
Inductive MsgStore : Type :=
| Wrapped (h : MH)
| CryptoMsgStore (MsgStore0 : MsgStore) (cs : loc).

(** Modelled from the spec: the struct [Channel] of stores/common.go, which
    holds the subscription store and the message-store handle of a channel. *)
Record Channel : Type := {
  Subs : SubStore;
  Msgs : MsgStore
}.

Definition set_Msgs (v : MsgStore) (c : Channel) : Channel :=
  {| Subs := Subs c; Msgs := v |}.

(** Modelled from the spec: [RecoveredChannel] of stores/common.go, a
    pointer to the channel and its recovered subscriptions. *)
Record RecoveredChannel : Type := {
  rcChannel : option loc;
  Subscriptions : list RecoveredSubscription
}.

(** Modelled from the spec: [RecoveredState] of stores/common.go; [Channels]
    is a Go map from channel names to [*RecoveredChannel]. *)
Record RecoveredState : Type := {
  Info : ServerInfo;
  Clients : list Client;
  Channels : gmap string (option RecoveredChannel)
}.

(** The private state of the wrapped store. *)
Context {U : Type}.

(** The process: its environment, the random source, the heaps of
    [CryptoStore], [Channel] and [MsgProto] objects, the wrapped store and
    the history of all seals. *)
Record World : Type := {
  environ : gmap string string;
  rand : list read_outcome;
  cstores : gmap loc CryptoStore;
  channels : gmap loc Channel;
  messages : gmap loc MsgProto;
  wrapped : U;
  events : list event
}.

Definition set_cstores (f : gmap loc CryptoStore → gmap loc CryptoStore) (w : World) : World :=
  {| environ := environ w; rand := rand w; cstores := f (cstores w);
     channels := channels w; messages := messages w; wrapped := wrapped w;
     events := events w |}.

Definition set_channels (f : gmap loc Channel → gmap loc Channel) (w : World) : World :=
  {| environ := environ w; rand := rand w; cstores := cstores w;
     channels := f (channels w); messages := messages w; wrapped := wrapped w;
     events := events w |}.

Definition set_messages (f : gmap loc MsgProto → gmap loc MsgProto) (w : World) : World :=
  {| environ := environ w; rand := rand w; cstores := cstores w;
     channels := channels w; messages := f (messages w); wrapped := wrapped w;
     events := events w |}.

Definition set_wrapped (f : U → U) (w : World) : World :=
  {| environ := environ w; rand := rand w; cstores := cstores w;
     channels := channels w; messages := messages w; wrapped := f (wrapped w);
     events := events w |}.

(** The machine of the store at [cs], and the world after that machine
    has run. *)
Definition machine_of (c : CryptoStore) (w : World) : Machine :=
  {| cstore := c; rand_Reader := rand w; history := events w |}.

Definition put_rand (m : Machine) (w : World) : World :=
  {| environ := environ w; rand := rand_Reader m; cstores := cstores w;
     channels := channels w; messages := messages w; wrapped := wrapped w;
     events := history m |}.

Definition put_machine (cs : loc) (m : Machine) (w : World) : World :=
  set_cstores <[cs := cstore m]> (put_rand m w).

(** The methods of the wrapped [Store] and of its message stores that this
    layer calls.  Each returns Go's pair of a value and an error. *)
Record Implementation : Type := {
  impl_Recover : SH → World → (option RecoveredState * option error) * World;
  impl_CreateChannel : SH → string → World → (option loc * option error) * World;
  impl_Store : MH → bytes → World → (N * option error) * World;
  impl_Lookup : MH → N → World → (option loc * option error) * World;
  impl_FirstMsg : MH → World → (option loc * option error) * World;
  impl_LastMsg : MH → World → (option loc * option error) * World
}.

Variable impl : Implementation.

Definition nil_dereference : string :=
  "invalid memory address or nil pointer dereference".

(** [os.Getenv] *)
Definition Getenv (name : string) (w : World) : string :=
  default "" (environ w !! name).

Definition CryptoStoreEnvKeyName : string := "NATS_STREAMING_ENCRYPTION_KEY".

(** [NewCryptoStore(s, key)].  The new object gets a fresh address. *)
Definition NewCryptoStore (P : Primitives) (s : SH) (key : string) (w : World)
  : (option loc * option error) * World :=
  let key := if decide (key = "") then Getenv CryptoStoreEnvKeyName w else key in
  if decide (key = "") then ((None, Some ErrCryptoStoreRequiresKey), w) else
  let keyHash := sha256_Sum P (String.list_byte_of_string key) in
  match chacha20poly1305_New P keyHash with
  | inl err => ((None, Some (LibError err)), w)
  | inr gcm =>
    let cs := {| inEncrypt := 0; encrypted := 0; mu := false; Store := s; gcm := gcm;
                 nonce := []; nonceSize := NonceSize gcm;
                 cryptoOverhead := Overhead gcm |} in
    match generateNewNonce (machine_of cs w) with
    | (Some err, m) => ((None, Some err), put_rand m w)
    | (None, m) =>
      let l := fresh (dom (cstores w)) in
      ((Some l, None), put_machine l m w)
    end
  end.

(** The channel objects of a recovered state, and a recovered state whose
    entries all point to a channel object of the world, no two to the same
    one. *)
Definition recovered_channels (rs : RecoveredState) : list loc :=
  omap (λ e, e.2 ≫= rcChannel) (map_to_list (Channels rs)).

Definition recovered_ok (rs : RecoveredState) (w : World) : Prop :=
  map_Forall (λ _ orc, ∃ rc l, orc = Some rc ∧ rcChannel rc = Some l ∧
                                is_Some (channels w !! l)) (Channels rs) ∧
  NoDup (recovered_channels rs).

(** Reading under another key, as a property of the primitives: whatever
    a store built with the key [k1] sealed, a store built with a different
    key [k2] does not decrypt, but returns an error. *)
Definition wrong_key_rejected (P : Primitives) : Prop :=
  ∀ (k1 k2 : string) (s : SH) (w1 w1' w2 w2' : World) l1 l2 c1 c2 fuel data buf m',
    k1 ≠ "" → k2 ≠ "" → k1 ≠ k2 →
    NewCryptoStore P s k1 w1 = ((Some l1, None), w1') → cstores w1' !! l1 = Some c1 →
    NewCryptoStore P s k2 w2 = ((Some l2, None), w2') → cstores w2' !! l2 = Some c2 →
    data ≠ [] →
    encrypt fuel (Some data) (machine_of c1 w1') = Done ((Some buf, None), m') →
    ∃ r e, decrypt c2 (Some buf) = Done (r, Some e).

(** [cs.Lock()] and [cs.Unlock()] on the object at [cs]. *)
Definition Lock (cs : loc) (w : World) : outcome World :=
  match cstores w !! cs with
  | None => Panic nil_dereference
  | Some c => if mu c then Spin else Done (set_cstores <[cs := set_mu true c]> w)
  end.

Definition Unlock (cs : loc) (w : World) : World :=
  set_cstores (alter (set_mu false) cs) w.

(** The body of the loop of [Recover]:
    [rc.Channel.Msgs = &CryptoMsgStore{MsgStore: rc.Channel.Msgs, cs: cs}]. *)
Definition wrap_Msgs (cs : loc) (rc : option RecoveredChannel) (w : World) : outcome World :=
  match rc with
  | None => Panic nil_dereference
  | Some rc =>
    match rcChannel rc with
    | None => Panic nil_dereference
    | Some l =>
      match channels w !! l with
      | None => Panic nil_dereference
      | Some c => Done (set_channels <[l := set_Msgs (CryptoMsgStore (Msgs c) cs) c]> w)
      end
    end
  end.

(** [for _, rc := range rs.Channels { ... }] over the entries of the map. *)
Fixpoint range_Channels (cs : loc) (rcs : list (string * option RecoveredChannel))
  (w : World) : outcome World :=
  match rcs with
  | [] => Done w
  | (_, rc) :: rcs => w ← wrap_Msgs cs rc w; range_Channels cs rcs w
  end.

(** [cs.Recover()]; the deferred [Unlock] runs on every return. *)
Definition Recover (cs : loc) (w : World)
  : outcome ((option RecoveredState * option error) * World) :=
  w ← Lock cs w;
  match cstores w !! cs with
  | None => Panic nil_dereference
  | Some c =>
    let '((rs, err), w) := impl_Recover impl (Store c) w in
    match rs, err with
    | Some rs', None =>
      w ← range_Channels cs (map_to_list (Channels rs')) w;
      Done ((rs, None), Unlock cs w)
    | _, _ => Done ((rs, err), Unlock cs w)
    end
  end.

(** [cs.CreateChannel(channel)] *)
Definition CreateChannel (cs : loc) (channel : string) (w : World)
  : outcome ((option loc * option error) * World) :=
  w ← Lock cs w;
  match cstores w !! cs with
  | None => Panic nil_dereference
  | Some c0 =>
    let '((c, err), w) := impl_CreateChannel impl (Store c0) channel w in
    match err with
    | Some e => Done ((None, Some e), Unlock cs w)
    | None =>
      match c with
      | None => Panic nil_dereference
      | Some l =>
        match channels w !! l with
        | None => Panic nil_dereference
        | Some ch =>
          let w := set_channels <[l := set_Msgs (CryptoMsgStore (Msgs ch) cs) ch]> w in
          Done ((Some l, None), Unlock cs w)
        end
      end
    end
  end.

(** [cs.encrypt] and [cs.decrypt] through the pointer [cs]. *)
Definition encrypt_at (fuel : nat) (cs : loc) (data : bytes) (w : World)
  : outcome ((bytes * option error) * World) :=
  match cstores w !! cs with
  | None => Panic nil_dereference
  | Some c =>
    '(r, m) ← encrypt fuel data (machine_of c w);
    Done (r, put_machine cs m w)
  end.

Definition decrypt_at (cs : loc) (data : bytes) (w : World) : outcome (bytes * option error) :=
  match cstores w !! cs with
  | None => Panic nil_dereference
  | Some c => decrypt c data
  end.

(** ** CryptoMsgStore *)

(** [ms.Store(data)]: the method of the wrapped implementation, or
    [(cms *CryptoMsgStore).Store]. *)
Fixpoint MsgStore_Store (fuel : nat) (ms : MsgStore) (data : bytes) (w : World)
  : outcome ((N * option error) * World) :=
  match ms with
  | Wrapped h => Done (impl_Store impl h data w)
  | CryptoMsgStore inner cs =>
    if decide (len data = 0) then MsgStore_Store fuel inner data w else
    '((ed, err), w) ← encrypt_at fuel cs data w;
    match err with
    | Some e => Done ((0%N, Some e), w)
    | None => MsgStore_Store fuel inner ed w
    end
  end.

(** [cms.decryptedMsg(m)], [m] not nil: the copy [retMsg] escapes and is a
    new object. *)
Definition decryptedMsg (cs : loc) (m : loc) (w : World)
  : outcome ((option loc * option error) * World) :=
  match messages w !! m with
  | None => Panic nil_dereference
  | Some msg =>
    '(dd, err) ← decrypt_at cs (Data msg) w;
    match err with
    | Some e => Done ((None, Some e), w)
    | None =>
      let retMsg := set_Data dd msg in
      let l := fresh (dom (messages w)) in
      Done ((Some l, None), set_messages <[l := retMsg]> w)
    end
  end.

(** The three read methods test [m == nil || m.Data == nil || err != nil]
    on what the embedded [MsgStore] returned, left to right. *)

(** [ms.Lookup(seq)] *)
Fixpoint MsgStore_Lookup (ms : MsgStore) (seq : N) (w : World)
  : outcome ((option loc * option error) * World) :=
  match ms with
  | Wrapped h => Done (impl_Lookup impl h seq w)
  | CryptoMsgStore inner cs =>
    '((m, err), w) ← MsgStore_Lookup inner seq w;
    match m with
    | None => Done ((m, err), w)
    | Some l =>
      match messages w !! l with
      | None => Panic nil_dereference
      | Some msg =>
        if decide (Data msg = None ∨ err ≠ None) then Done ((m, err), w)
        else decryptedMsg cs l w
      end
    end
  end.

(** [ms.FirstMsg()] *)
Fixpoint MsgStore_FirstMsg (ms : MsgStore) (w : World)
  : outcome ((option loc * option error) * World) :=
  match ms with
  | Wrapped h => Done (impl_FirstMsg impl h w)
  | CryptoMsgStore inner cs =>
    '((m, err), w) ← MsgStore_FirstMsg inner w;
    match m with
    | None => Done ((m, err), w)
    | Some l =>
      match messages w !! l with
      | None => Panic nil_dereference
      | Some msg =>
        if decide (Data msg = None ∨ err ≠ None) then Done ((m, err), w)
        else decryptedMsg cs l w
      end
    end
  end.

(** [ms.LastMsg()] *)
Fixpoint MsgStore_LastMsg (ms : MsgStore) (w : World)
  : outcome ((option loc * option error) * World) :=
  match ms with
  | Wrapped h => Done (impl_LastMsg impl h w)
  | CryptoMsgStore inner cs =>
    '((m, err), w) ← MsgStore_LastMsg inner w;
    match m with
    | None => Done ((m, err), w)
    | Some l =>
      match messages w !! l with
      | None => Panic nil_dereference
      | Some msg =>
        if decide (Data msg = None ∨ err ≠ None) then Done ((m, err), w)
        else decryptedMsg cs l w
      end
    end
  end.

End CryptoStore.

(** ** A reference instance of the interfaces

    A small AEAD, a digest and an in-memory store that implement the
    interfaces above, on which the statements of this file are run. *)

Module Reference.

Definition byte_of (n : N) : byte := default x00 (Byte.of_N (n mod 256)).

Definition shift (k b : byte) : byte := byte_of (Byte.to_N b + Byte.to_N k).

Definition unshift (k b : byte) : byte := byte_of (Byte.to_N b + 256 - Byte.to_N k).

Definition checksum (l : list byte) : byte :=
  byte_of (foldr (λ b acc, Byte.to_N b + acc)%N 0%N l).

Definition tag (key nonce c ad : list byte) : list byte :=
  replicate 16 (checksum (key ++ nonce ++ c ++ ad)).

(** Every byte is shifted by a checksum of key and nonce; the tag is a
    checksum of key, nonce, ciphertext and additional data. *)
Definition shift_aead (key : list byte) : AEAD := {|
  NonceSize := 12;
  Overhead := 16;
  Seal := λ nonce p ad,
    let c := shift (checksum (key ++ nonce)) <$> p in
    c ++ tag key nonce c ad;
  Open := λ nonce ct ad,
    if decide (length ct < 16) then (None, Some (LibError ErrOpen)) else
    let c := take (length ct - 16) ct in
    if decide (drop (length ct - 16) ct = tag key nonce c ad) then
      let p := unshift (checksum (key ++ nonce)) <$> c in
      (if decide (p = []) then None else Some p, None)
    else (None, Some (LibError ErrOpen))
|}.

(** The key, cut or padded with zeros to 32 bytes. *)
Definition pad_digest (k : list byte) : list byte := take 32 (k ++ replicate 32 x00).

Definition primitives : Primitives := {|
  sha256_Sum := pad_digest;
  chacha20poly1305_New := λ k,
    if decide (length k = 32) then inr (shift_aead k) else inl ErrBadKeyLength
|}.

(** The in-memory store: channel names to channel objects, and the
    messages of each message store in the order they were stored. *)
Record MemStore : Type := {
  registry : gmap string loc;
  stored : gmap positive (list loc)
}.

Definition MemWorld : Type := @World unit positive unit MemStore.

Definition envelope (seq : N) (data : bytes) : MsgProto :=
  {| Sequence := seq; Subject := ""; Reply := ""; Data := data;
     Timestamp := 0; Redelivered := false; CRC32 := 0 |}.

Definition mem_Store (h : positive) (data : bytes) (w : MemWorld)
  : (N * option error) * MemWorld :=
  let ptrs := default [] (stored (wrapped w) !! h) in
  let seq := N.of_nat (S (length ptrs)) in
  let l := fresh (dom (messages w)) in
  ((seq, None),
   set_wrapped (λ u, {| registry := registry u; stored := <[h := ptrs ++ [l]]> (stored u) |})
     (set_messages <[l := envelope seq data]> w)).

Definition mem_Lookup (h : positive) (seq : N) (w : MemWorld)
  : (option loc * option error) * MemWorld :=
  let ptrs := default [] (stored (wrapped w) !! h) in
  ((if decide (seq = 0%N) then None else ptrs !! (N.to_nat seq - 1), None), w).

Definition mem_FirstMsg (h : positive) (w : MemWorld)
  : (option loc * option error) * MemWorld :=
  ((head (default [] (stored (wrapped w) !! h)), None), w).

Definition mem_LastMsg (h : positive) (w : MemWorld)
  : (option loc * option error) * MemWorld :=
  ((last (default [] (stored (wrapped w) !! h)), None), w).

Definition mem_CreateChannel (s : unit) (name : string) (w : MemWorld)
  : (option loc * option error) * MemWorld :=
  match registry (wrapped w) !! name with
  | Some _ => ((None, Some (LibError (ErrOther "channel already exists"))), w)
  | None =>
    let h := fresh (dom (stored (wrapped w))) in
    let l := fresh (dom (channels w)) in
    ((Some l, None),
     set_wrapped (λ u, {| registry := <[name := l]> (registry u);
                          stored := <[h := []]> (stored u) |})
       (set_channels <[l := {| Subs := tt; Msgs := Wrapped h |}]> w))
  end.

Definition mem_Recover (s : unit) (w : MemWorld)
  : (option (@RecoveredState unit unit unit) * option error) * MemWorld :=
  ((Some {| Info := tt; Clients := [];
            Channels := (λ l, Some {| rcChannel := Some l; Subscriptions := [] |})
                          <$> registry (wrapped w) |}, None), w).

Definition memory_store : Implementation := {|
  impl_Recover := mem_Recover;
  impl_CreateChannel := mem_CreateChannel;
  impl_Store := mem_Store;
  impl_Lookup := mem_Lookup;
  impl_FirstMsg := mem_FirstMsg;
  impl_LastMsg := mem_LastMsg
|}.

(** A process with [env_key] in the environment variable when given, the
    random reads [r] ahead and an empty store. *)
Definition boot (env_key : option string) (r : list read_outcome) : MemWorld := {|
  environ := from_option (λ k, {[ CryptoStoreEnvKeyName := k ]}) ∅ env_key;
  rand := r;
  cstores := ∅;
  channels := ∅;
  messages := ∅;
  wrapped := {| registry := ∅; stored := ∅ |};
  events := []
|}.

(** The world an outcome leaves, or [w] when the call did not return. *)
Definition after {A} (o : outcome (A * MemWorld)) (w : MemWorld) : MemWorld :=
  match o with
  | Done (_, w') => w'
  | _ => w
  end.

(** A process that creates a store with the key "ivan", then the channel
    "foo", and stores "msg0" in it.  Two nonces are ahead in the random
    source. *)
Definition nonce1 : list byte := replicate 12 x01.
Definition nonce2 : list byte := replicate 12 x02.

Definition world0 : MemWorld := boot None [ReadBytes nonce1; ReadBytes nonce2].

Definition world1 : MemWorld := (NewCryptoStore primitives tt "ivan" world0).2.

Definition world2 : MemWorld :=
  after (CreateChannel memory_store 1%positive "foo" world1) world1.

Definition foo_Msgs : @MsgStore positive := CryptoMsgStore (Wrapped 1%positive) 1%positive.

Definition msg0 : list byte := String.list_byte_of_string "msg0".

Definition world3 : MemWorld :=
  after (MsgStore_Store 3 memory_store 1 foo_Msgs (Some msg0) world2) world2.

(** The same process storing, instead of "msg0": a nil payload; an empty
    payload that is not nil; and "hello", put into the wrapped message
    store directly. *)
Definition world_nil : MemWorld :=
  after (MsgStore_Store 3 memory_store 1 foo_Msgs None world2) world2.

Definition world_empty : MemWorld :=
  after (MsgStore_Store 3 memory_store 1 foo_Msgs (Some []) world2) world2.

Definition hello : list byte := String.list_byte_of_string "hello".

Definition world_short : MemWorld := (mem_Store 1%positive (Some hello) world2).2.

(** The process that stored "msg0", with a second store built from the
    key "wrongkey" and a handle that reads the channel through it. *)
Definition world_wrong : MemWorld := (NewCryptoStore primitives tt "wrongkey" world3).2.

Definition wrong_Msgs : @MsgStore positive := CryptoMsgStore (Wrapped 1%positive) 2%positive.

(** A process whose wrapped store holds the channel "foo" before the
    encrypting store is asked to recover. *)
Definition world_foo : MemWorld := (mem_CreateChannel tt "foo" world1).2.

(** The store of that process as [NewCryptoStore] made it, with the
    counter at [e]. *)
Definition store1 (e : Z) : @CryptoStore unit := {|
  inEncrypt := 0;
  encrypted := e;
  mu := false;
  Store := tt;
  gcm := shift_aead (pad_digest (String.list_byte_of_string "ivan"));
  nonce := nonce1;
  nonceSize := 12;
  cryptoOverhead := 16
|}.

Definition machine1 (e : Z) (r : list read_outcome) : @Machine unit := {|
  cstore := store1 e;
  rand_Reader := r;
  history := [Installed nonce1]
|}.

End Reference.

(** * Properties *)

(** ** Go values *)

Lemma length_make n : length (make n) = n.
Proof. apply length_replicate. Qed.

Lemma length_copy dst src : length (copy dst src) = length dst.
Proof. unfold copy. rewrite length_app, length_take, length_drop. lia. Qed.

Lemma copy_make k src :
  length src ≤ k → copy (make k) src = src ++ make (k - length src).
Proof.
  intros Hk. unfold copy, make. rewrite length_replicate.
  rewrite take_ge by done. by rewrite drop_replicate.
Qed.

Lemma wrap64_small z : (- 2 ^ 63 ≤ z < 2 ^ 63)%Z → wrap64 z = z.
Proof. intros Hz. unfold wrap64. rewrite Z.mod_small; lia. Qed.

Lemma AddInt64_small x d : (- 2 ^ 63 ≤ x + d < 2 ^ 63)%Z → AddInt64 x d = (x + d)%Z.
Proof. apply wrap64_small. Qed.

Lemma AddInt64_enter : AddInt64 0 1 = 1%Z.
Proof. reflexivity. Qed.

Lemma AddInt64_leave : AddInt64 1 (-1) = 0%Z.
Proof. reflexivity. Qed.

Lemma ReadFull_length n r bs r' : ReadFull n r = ((bs, None), r') → length bs = n.
Proof.
  unfold ReadFull. destruct n as [|n]; [by intros [= <- _]|].
  destruct r as [|[bs'|e] r'']; [done| |done].
  case_decide; [|done]. intros [= <- _]. rewrite length_take. lia.
Qed.

(** ** Histories *)

Lemma snoc_eq_middle {A} (l l1 l2 : list A) x y :
  l ++ [x] = l1 ++ y :: l2 →
  (l2 = [] ∧ l = l1 ∧ x = y) ∨ (∃ l2', l2 = l2' ++ [x] ∧ l = l1 ++ y :: l2').
Proof.
  destruct l2 as [|z l2 _] using rev_ind.
  - intros [-> ->]%app_inj_tail. by left.
  - rewrite app_comm_cons, app_assoc. intros [-> ->]%app_inj_tail. right. eauto.
Qed.

Lemma snoc_two {A} (l : list A) x y : l ++ [x; y] = (l ++ [x]) ++ [y].
Proof. by rewrite <-app_assoc. Qed.

Lemma seals_per_nonce_snoc h e : seals_per_nonce (h ++ [e]) = tally (seals_per_nonce h) e.
Proof. unfold seals_per_nonce. by rewrite fold_left_app. Qed.

Lemma active_nonce_installed h n : active_nonce (h ++ [Installed n]) = Some n.
Proof. unfold active_nonce. rewrite omap_app. simpl. apply last_snoc. Qed.

Lemma active_nonce_sealed h n count : active_nonce (h ++ [Sealed n count]) = active_nonce h.
Proof. unfold active_nonce. rewrite omap_app. simpl. by rewrite app_nil_r. Qed.

(** ** The sealed buffer *)

Section CryptoStoreProperties.

Context {SH : Type}.
Variable csMaxEncryptCallsPerNonce : Z.

Local Abbreviation CryptoStore := (@CryptoStore SH).
Local Abbreviation Machine := (@Machine SH).
Local Abbreviation encrypt := (encrypt csMaxEncryptCallsPerNonce).
Local Abbreviation cs_wf := (cs_wf csMaxEncryptCallsPerNonce).
Local Abbreviation cs_ok := (cs_ok csMaxEncryptCallsPerNonce).

Ltac exists_final_state :=
  match goal with
  | |- ∃ m', Done (_, ?M) = _ ∧ _ => exists M; split; [reflexivity|]
  end.

Ltac unfold_state :=
  unfold with_cstore, record, set_inEncrypt, set_encrypted, set_mu, set_nonce;
  cbn [cstore rand_Reader history inEncrypt encrypted mu Store gcm nonce nonceSize
       cryptoOverhead].

(** The state a seal leaves behind. *)
Lemma seal_spec count data (m : Machine) :
  length (nonce (cstore m)) = nonceSize (cstore m) →
  nonceSize (cstore m) = NonceSize (gcm (cstore m)) →
  cryptoOverhead (cstore m) = Overhead (gcm (cstore m)) →
  AEAD_ok (gcm (cstore m)) →
  seal count data m =
    Done ((Some (nonce (cstore m) ++
                 Seal (gcm (cstore m)) (nonce (cstore m)) (elems data) []), None),
          with_cstore (λ cs, set_inEncrypt (AddInt64 (inEncrypt cs) (-1)) cs)
            (record (Sealed (nonce (cstore m)) count) m)).
Proof.
  intros Hn Hns Hov Hok. unfold seal.
  set (cs := cstore m) in *.
  assert (Hbuf : copy_at (nonceSize cs) (copy (make (nonceSize cs + cryptoOverhead cs + len data)) (nonce cs)) (elems data)
                 = nonce cs ++ elems data ++ make (cryptoOverhead cs)).
  { rewrite copy_make by lia. unfold copy_at.
    rewrite take_app_length', drop_app_length' by done.
    rewrite Hn. replace (nonceSize cs + cryptoOverhead cs + len data - nonceSize cs)
      with (cryptoOverhead cs + len data) by lia.
    rewrite copy_make by (unfold len, elems; lia).
    do 3 f_equal. unfold len, elems. lia. }
  rewrite Hbuf. rewrite drop_app_length' by done.
  rewrite take_app_length' by done.
  rewrite (decide_True (P := length (nonce cs) = NonceSize (gcm cs))) by lia.
  pose proof (Seal_length _ Hok (nonce cs) (elems data) [] ltac:(lia)) as Hlen.
  set (ret := Seal (gcm cs) (nonce cs) (elems data) []) in *.
  rewrite !(decide_True (P := length ret ≤ cryptoOverhead cs + len data))
    by (unfold len, elems in *; lia).
  rewrite take_app_length' by done.
  rewrite drop_ge; last first.
  { rewrite !length_app, length_make. lia. }
  rewrite app_nil_r.
  rewrite decide_True by (rewrite length_app; lia).
  rewrite take_ge by (rewrite length_app; lia).
  done.
Qed.

(** ** One call of [encrypt] *)

Local Abbreviation maximum_ok := (maximum_ok csMaxEncryptCallsPerNonce).
Local Abbreviation no_overflow := (no_overflow csMaxEncryptCallsPerNonce).

(** Below the maximum the call seals under the active nonce. *)
Lemma encrypt_below fuel data (m : Machine) :
  maximum_ok → cs_wf (cstore m) →
  (encrypted (cstore m) + 1 < csMaxEncryptCallsPerNonce)%Z →
  encrypt (S fuel) data m =
    Done ((Some (nonce (cstore m) ++
                 Seal (gcm (cstore m)) (nonce (cstore m)) (elems data) []), None),
          {| cstore := set_encrypted (encrypted (cstore m) + 1) (cstore m);
             rand_Reader := rand_Reader m;
             history := history m ++
               [Sealed (nonce (cstore m)) (encrypted (cstore m) + 1)] |}).
Proof.
  intros [HM0 HM1] [Hin Hmu [He0 He1] Hn Hns Hov Hok] Hlt.
  destruct m as [[i e mx st g n ns ov] r h]; simpl in *; subst.
  cbn [encrypt]. unfold_state.
  rewrite AddInt64_enter, (AddInt64_small e 1) by lia.
  rewrite decide_False by lia.
  rewrite seal_spec by done. unfold_state.
  by rewrite AddInt64_leave.
Qed.

(** At the maximum the call installs a new nonce and seals under it. *)
Lemma encrypt_rotate fuel data (m : Machine) n' r' :
  maximum_ok → cs_wf (cstore m) →
  (encrypted (cstore m) + 1 = csMaxEncryptCallsPerNonce)%Z →
  ReadFull (NonceSize (gcm (cstore m))) (rand_Reader m) = ((n', None), r') →
  encrypt (S fuel) data m =
    Done ((Some (n' ++ Seal (gcm (cstore m)) n' (elems data) []), None),
          {| cstore := set_nonce n' (set_encrypted 0 (cstore m));
             rand_Reader := r';
             history := history m ++
               [Installed n'; Sealed n' csMaxEncryptCallsPerNonce] |}).
Proof.
  intros [HM0 HM1] [Hin Hmu [He0 He1] Hn Hns Hov Hok] Heq Hread.
  pose proof (ReadFull_length _ _ _ _ Hread) as Hlen.
  destruct m as [[i e mx st g n ns ov] r h]; simpl in *; subst.
  cbn [encrypt]. unfold_state.
  rewrite AddInt64_enter, AddInt64_leave, (AddInt64_small e 1) by lia.
  rewrite !decide_True by lia. rewrite decide_False by lia.
  unfold generateNewNonce. unfold_state. rewrite Hread. unfold_state.
  rewrite seal_spec by (simpl; first [done | lia]). unfold_state.
  rewrite AddInt64_enter, AddInt64_leave.
  by rewrite <-app_assoc.
Qed.

(** When the random source fails at the maximum, the call returns the
    error with the mutex free, seals nothing, and leaves the counter at
    the maximum. *)
Lemma encrypt_rotate_fail fuel data (m : Machine) bs err r' :
  maximum_ok → cs_wf (cstore m) →
  (encrypted (cstore m) + 1 = csMaxEncryptCallsPerNonce)%Z →
  ReadFull (NonceSize (gcm (cstore m))) (rand_Reader m) = ((bs, Some err), r') →
  encrypt (S fuel) data m =
    Done ((None, Some err),
          {| cstore := set_encrypted csMaxEncryptCallsPerNonce (cstore m);
             rand_Reader := r';
             history := history m |}).
Proof.
  intros [HM0 HM1] [Hin Hmu [He0 He1] Hn Hns Hov Hok] Heq Hread.
  destruct m as [[i e mx st g n ns ov] r h]; simpl in *; subst.
  cbn [encrypt]. unfold_state.
  rewrite AddInt64_enter, AddInt64_leave, (AddInt64_small e 1) by lia.
  rewrite !decide_True by lia. rewrite decide_False by lia.
  unfold generateNewNonce. unfold_state. by rewrite Hread.
Qed.

(** Once the counter has reached the maximum, a call only goes round the
    label: every pass reads a counter above the maximum. *)
Lemma encrypt_spins fuel data (m : Machine) :
  maximum_ok →
  inEncrypt (cstore m) = 0%Z → mu (cstore m) = false →
  (csMaxEncryptCallsPerNonce ≤ encrypted (cstore m))%Z →
  (encrypted (cstore m) + Z.of_nat fuel < 2 ^ 63)%Z →
  encrypt fuel data m = Spin.
Proof.
  intros [HM0 HM1]. revert m.
  induction fuel as [|fuel IH]; intros m Hin Hmu Hge Hlt; [done|].
  destruct m as [[i e mx st g n ns ov] r h]; simpl in *; subst.
  cbn [encrypt]. unfold_state.
  rewrite AddInt64_enter, AddInt64_leave, (AddInt64_small e 1) by lia.
  rewrite decide_True by lia. rewrite decide_False by lia.
  apply IH; simpl; lia || done.
Qed.

(** A call on a store whose counter is below the maximum returns: either
    the sealed buffer, or the error of the random source when a rotation
    was due. *)
Lemma encrypt_returns fuel data (m : Machine) :
  maximum_ok → cs_ok (cstore m) →
  (∃ m', encrypt (S fuel) data m =
           Done ((Some (nonce (cstore m') ++
                        Seal (gcm (cstore m')) (nonce (cstore m')) (elems data) []),
                  None), m') ∧
         cs_wf (cstore m') ∧
         gcm (cstore m') = gcm (cstore m) ∧
         nonceSize (cstore m') = nonceSize (cstore m) ∧
         cryptoOverhead (cstore m') = cryptoOverhead (cstore m)) ∨
  (∃ err m', encrypt (S fuel) data m = Done ((None, Some err), m') ∧
     (encrypted (cstore m) + 1 = csMaxEncryptCallsPerNonce)%Z ∧
     (ReadFull (NonceSize (gcm (cstore m))) (rand_Reader m)).1.2 = Some err).
Proof.
  intros HM [Hwf Hlt].
  destruct (decide (encrypted (cstore m) + 1 < csMaxEncryptCallsPerNonce)%Z) as [Hb|Hb].
  - left. rewrite encrypt_below by done. exists_final_state.
    destruct Hwf. simpl. split_and!; try done. split; simpl; try done. lia.
  - destruct (ReadFull (NonceSize (gcm (cstore m))) (rand_Reader m))
      as [[n' [err|]] r'] eqn:Hread.
    + right. rewrite (encrypt_rotate_fail _ _ _ n' err r') by (done || lia).
      eexists _, _. split; [reflexivity|]. split; [lia|done].
    + left. rewrite (encrypt_rotate _ _ _ n' r') by (done || lia).
      exists_final_state.
      pose proof (ReadFull_length _ _ _ _ Hread).
      destruct Hwf, HM. simpl. split_and!; try done. split; simpl; try done; lia.
Qed.

Lemma decrypt_sealed (cs : CryptoStore) n p :
  length n = nonceSize cs → nonceSize cs = NonceSize (gcm cs) → AEAD_ok (gcm cs) →
  ∃ r, decrypt cs (Some (n ++ Seal (gcm cs) n p [])) = Done (r, None) ∧ elems r = p.
Proof.
  intros Hn Hns Hok. unfold decrypt, len, elems. simpl.
  rewrite decide_True by (rewrite length_app; lia).
  rewrite take_app_length', drop_app_length' by done.
  destruct (Open_Seal _ Hok n p [] ltac:(lia)) as (r & -> & Hr). eauto.
Qed.

(** ** Round trip and record layout *)

(** C1. A non-empty payload that [encrypt] sealed is what [decrypt] of the
    same store gives back.  From a store whose counter is below the maximum
    the call returns: with the sealed buffer, or, when a rotation was due
    and the random source failed, with that error. *)
Theorem decrypt_encrypt fuel (P : list byte) (m : Machine) :
  maximum_ok → cs_ok (cstore m) → P ≠ [] →
  (∃ buf m', encrypt (S fuel) (Some P) m = Done ((buf, None), m') ∧
     decrypt (cstore m') buf = Done (Some P, None)) ∨
  (∃ err m', encrypt (S fuel) (Some P) m = Done ((None, Some err), m') ∧
     (encrypted (cstore m) + 1 = csMaxEncryptCallsPerNonce)%Z ∧
     (ReadFull (NonceSize (gcm (cstore m))) (rand_Reader m)).1.2 = Some err).
Proof.
  intros HM Hok HP.
  destruct (encrypt_returns fuel (Some P) m HM Hok)
    as [(m' & Henc & Hwf & _)|Hfail]; [left|by right].
  eexists _, m'. split; [done|].
  destruct Hwf as [_ _ _ Hn Hns _ Hg].
  destruct (decrypt_sealed (cstore m') (nonce (cstore m')) P Hn Hns Hg) as (r & Hd & Hr).
  change (elems (Some P)) with P. rewrite Hd.
  destruct r as [l|]; simpl in *; by subst.
Qed.

(** ** The history of a store *)

Local Abbreviation seals_within_maximum := (seals_within_maximum csMaxEncryptCallsPerNonce).
Local Abbreviation machine_inv := (machine_inv csMaxEncryptCallsPerNonce).
Local Abbreviation encrypt_all := (encrypt_all csMaxEncryptCallsPerNonce).

Lemma seals_within_maximum_installed h n :
  seals_within_maximum h → seals_within_maximum (h ++ [Installed n]).
Proof.
  intros Hh h1 h2 n' count [(_ & _ & [=])|(h2' & -> & ->)]%snoc_eq_middle.
  by eapply Hh.
Qed.

Lemma seals_within_maximum_sealed h n count :
  seals_within_maximum h →
  active_nonce h = Some n →
  (0 < count < csMaxEncryptCallsPerNonce)%Z ∨
    (count = csMaxEncryptCallsPerNonce ∧ ∃ h0, h = h0 ++ [Installed n]) →
  seals_within_maximum (h ++ [Sealed n count]).
Proof.
  intros Hh Ha Hc h1 h2 n' count' [(_ & <- & [= <- <-])|(h2' & -> & ->)]%snoc_eq_middle.
  - done.
  - by eapply Hh.
Qed.

(** A returning call keeps the invariant, and it resets the counter to
    zero exactly when it installs a nonce. *)
Lemma encrypt_inv fuel data (m : Machine) r m' :
  maximum_ok → no_overflow fuel → machine_inv m →
  encrypt fuel data m = Done (r, m') →
  machine_inv m' ∧
  (encrypted (cstore m') = 0%Z ↔ ∃ n h, history m' = history m ++ Installed n :: h).
Proof.
  intros HM Hfuel [Hwf Hact (c & t & Htally & Hc & Ht) Hseals] Henc.
  pose proof HM as [HM0 HM1]. pose proof Hwf as [Hin Hmu [He0 He1] Hn Hns Hov Hok].
  destruct (decide (encrypted (cstore m) < csMaxEncryptCallsPerNonce)%Z) as [Hlt|Hge];
    last first.
  { rewrite encrypt_spins in Henc; [done..|lia|]. unfold no_overflow in Hfuel. lia. }
  destruct fuel as [|fuel]; [done|].
  destruct (decide (encrypted (cstore m) + 1 < csMaxEncryptCallsPerNonce)%Z) as [Hb|Hb].
  - rewrite encrypt_below in Henc by done. injection Henc as <- <-. split.
    + split; simpl.
      * split; simpl; try done. lia.
      * by rewrite active_nonce_sealed.
      * rewrite seals_per_nonce_snoc, Htally. simpl.
        eexists _, _. split; [done|]. split; [lia|done].
      * apply seals_within_maximum_sealed; [done..|]. left. lia.
    + simpl. split; [lia|]. intros (n & h & Hh).
      apply app_inv_head in Hh. by destruct h.
  - destruct (ReadFull (NonceSize (gcm (cstore m))) (rand_Reader m))
      as [[n' [err|]] r'] eqn:Hread.
    + rewrite (encrypt_rotate_fail _ _ _ n' err r') in Henc by (done || lia).
      injection Henc as <- <-. split.
      * split; simpl; try done.
        -- split; simpl; try done. lia.
        -- eexists _, _. split; [done|]. split; [lia|done].
      * simpl. split; [lia|]. intros (n & h & Hh).
        rewrite <-(app_nil_r (history m)) in Hh at 1. by apply app_inv_head in Hh.
    + pose proof (ReadFull_length _ _ _ _ Hread) as Hlen.
      rewrite (encrypt_rotate _ _ _ n' r') in Henc by (done || lia).
      injection Henc as <- <-. split.
      * split; simpl.
        -- split; simpl; try done; lia.
        -- rewrite snoc_two, active_nonce_sealed.
           apply active_nonce_installed.
        -- rewrite snoc_two, !seals_per_nonce_snoc, Htally. simpl.
           eexists _, _. split; [done|]. split; [lia|].
           constructor; [lia|done].
        -- rewrite snoc_two.
           apply seals_within_maximum_sealed.
           ++ by apply seals_within_maximum_installed.
           ++ apply active_nonce_installed.
           ++ right. eauto.
      * simpl. split; [eauto|done].
Qed.

(** A run of calls keeps the invariant. *)
Lemma encrypt_all_inv calls (m : Machine) :
  maximum_ok → Forall (λ c, no_overflow c.1) calls → machine_inv m →
  machine_inv (encrypt_all calls m).
Proof.
  intros HM Hcalls. revert m.
  induction Hcalls as [|[fuel data] calls Hfuel _ IH]; intros m Hinv; [done|].
  simpl. destruct (encrypt fuel data m) as [[r m']| |] eqn:Henc; [|done..].
  apply IH. by eapply encrypt_inv.
Qed.

(** ** Nonce rotation *)

(** C2. After any run of seal calls on a store, every seal in the history
    was made under the nonce active at that time by a call that read a
    counter below the maximum, or by the one call that read the maximum and
    installed that nonce; no nonce has more seals than the maximum; and a
    further call leaves the counter at zero exactly when it installs a
    nonce.  No call of the run goes round the label often enough to
    overflow the counter. *)
Theorem nonce_use_bounded calls (m : Machine) :
  maximum_ok → machine_inv m → Forall (λ c, no_overflow c.1) calls →
  seals_within_maximum (history (encrypt_all calls m)) ∧
  Forall (λ u, (Z.of_nat u ≤ csMaxEncryptCallsPerNonce)%Z)
    (seals_per_nonce (history (encrypt_all calls m))) ∧
  ∀ fuel data r m', no_overflow fuel →
    encrypt fuel data (encrypt_all calls m) = Done (r, m') →
    (encrypted (cstore m') = 0%Z ↔
     ∃ n h, history m' = history (encrypt_all calls m) ++ Installed n :: h).
Proof.
  intros HM Hinv Hcalls.
  pose proof (encrypt_all_inv calls m HM Hcalls Hinv) as Hinv'.
  split_and!.
  - apply Hinv'.
  - destruct Hinv' as [_ _ (c & t & -> & Hc & Ht) _]. constructor; [lia|done].
  - intros fuel data r m' Hfuel Henc. by eapply encrypt_inv.
Qed.

(** C5. When the random source fails in the call that has to rotate, the
    call returns that error, seals nothing and frees the mutex; but the
    counter stays at the maximum, so no later call reads the maximum
    again: every later call goes round the label without returning and the
    rotation is never tried again. *)
Theorem failed_rotation_is_not_retried fuel data (m : Machine) bs err r' :
  maximum_ok → cs_wf (cstore m) →
  (encrypted (cstore m) + 1 = csMaxEncryptCallsPerNonce)%Z →
  ReadFull (NonceSize (gcm (cstore m))) (rand_Reader m) = ((bs, Some err), r') →
  ∃ m', encrypt (S fuel) data m = Done ((None, Some err), m') ∧
    mu (cstore m') = false ∧
    history m' = history m ∧
    ∀ fuel' data', no_overflow fuel' → encrypt fuel' data' m' = Spin.
Proof.
  intros HM Hwf Heq Hread.
  rewrite (encrypt_rotate_fail _ _ _ bs err r') by done.
  eexists. split; [done|]. destruct Hwf. split_and!; try done.
  intros fuel' data' Hfuel. by apply encrypt_spins.
Qed.

(** ** The message store *)

Context {MH SubStore ServerInfo Client RecoveredSubscription U : Type}.
Variable impl : @Implementation SH MH SubStore ServerInfo Client RecoveredSubscription U.

Local Abbreviation World := (@World SH MH SubStore U).
Local Abbreviation MsgStore := (@MsgStore MH).
Local Abbreviation MsgStore_Store := (MsgStore_Store csMaxEncryptCallsPerNonce impl).
Local Abbreviation MsgStore_Lookup := (MsgStore_Lookup impl).
Local Abbreviation MsgStore_FirstMsg := (MsgStore_FirstMsg impl).
Local Abbreviation MsgStore_LastMsg := (MsgStore_LastMsg impl).

(** C3. The buffer [encrypt] returns is the nonce of the store, of the
    fixed length [nonceSize], followed by the sealed text (ciphertext and
    tag), [nonceSize + len(data) + cryptoOverhead] bytes in all; and
    [Store] hands an empty payload to the embedded store as it is. *)
Theorem sealed_record_layout fuel data (m : Machine) (inner : MsgStore) cs (w : World) :
  maximum_ok → cs_ok (cstore m) →
  ((∃ buf m', encrypt (S fuel) data m = Done ((Some buf, None), m') ∧
      buf = nonce (cstore m') ++
            Seal (gcm (cstore m)) (nonce (cstore m')) (elems data) [] ∧
      length (nonce (cstore m')) = nonceSize (cstore m) ∧
      length buf = nonceSize (cstore m) + len data + cryptoOverhead (cstore m)) ∨
   (∃ err m', encrypt (S fuel) data m = Done ((None, Some err), m') ∧
      (encrypted (cstore m) + 1 = csMaxEncryptCallsPerNonce)%Z ∧
      (ReadFull (NonceSize (gcm (cstore m))) (rand_Reader m)).1.2 = Some err)) ∧
  (∀ fuel' empty, len empty = 0 →
   MsgStore_Store fuel' (CryptoMsgStore inner cs) empty w = MsgStore_Store fuel' inner empty w).
Proof.
  intros HM Hok. split.
  - destruct (encrypt_returns fuel data m HM Hok)
      as [(m' & Henc & Hwf & Hg & Hns & Hov)|Hfail]; [left|by right].
    eexists _, m'. split; [done|]. destruct Hwf as [_ _ _ Hn Hns' Hov' Hgcm].
    rewrite <-Hg. split_and!; [done|lia|].
    rewrite length_app, (Seal_length _ Hgcm) by lia. unfold len, elems. lia.
  - intros fuel' empty Hlen. simpl. by rewrite decide_True.
Qed.

(** ** Construction *)

(** C7. [NewCryptoStore] fails with [ErrCryptoStoreRequiresKey] exactly
    when the key parameter is empty and the environment variable is unset
    or empty.  With an empty parameter and the variable set, the
    construction is the one for the variable's value, and it succeeds when
    the random source delivers the first nonce. *)
Theorem NewCryptoStore_requires_key (P : Primitives) (s : SH) (key : string) (w : World) :
  ((NewCryptoStore P s key w).1.2 = Some ErrCryptoStoreRequiresKey ↔
   key = "" ∧ (environ w !! CryptoStoreEnvKeyName = None ∨
               environ w !! CryptoStoreEnvKeyName = Some "")) ∧
  (∀ k, key = "" → environ w !! CryptoStoreEnvKeyName = Some k → k ≠ "" →
     NewCryptoStore P s key w = NewCryptoStore P s k w ∧
     (Primitives_ok P →
      ∀ bs r, rand w = ReadBytes bs :: r →
        (∀ a, chacha20poly1305_New P (sha256_Sum P (String.list_byte_of_string k)) = inr a →
              NonceSize a ≤ length bs) →
        ∃ l w' c, NewCryptoStore P s key w = ((Some l, None), w') ∧
                  cstores w' !! l = Some c ∧ Store c = s)).
Proof.
  split.
  - unfold NewCryptoStore, Getenv. split.
    + destruct (decide (key = "")) as [->|Hkey].
      * destruct (environ w !! CryptoStoreEnvKeyName) as [k|] eqn:Hk; simpl; [|by eauto].
        destruct (decide (k = "")) as [->|Hne]; [by eauto|].
        destruct (chacha20poly1305_New P _); [done|].
        unfold generateNewNonce. destruct (ReadFull _ _) as [[? [?|]] ?] eqn:Hread; [|done].
        simpl. intros [= Herr]. exfalso. revert Hread. unfold ReadFull.
        repeat case_match; naive_solver.
      * rewrite decide_False by done.
        destruct (chacha20poly1305_New P _); [done|].
        unfold generateNewNonce. destruct (ReadFull _ _) as [[? [?|]] ?] eqn:Hread; [|done].
        simpl. intros [= Herr]. exfalso. revert Hread. unfold ReadFull.
        repeat case_match; naive_solver.
    + intros [-> Henv]. by destruct Henv as [-> | ->].
  - intros k -> Hk Hne. split.
    + unfold NewCryptoStore, Getenv. rewrite Hk. simpl.
      destruct (decide (k = "")) as [|Hk']; [done|]. simpl.
      by destruct (decide (k = "")).
    + intros HP bs r Hrand Hbs. unfold NewCryptoStore, Getenv. rewrite Hk. simpl.
      destruct (decide (k = "")) as [|_]; [done|].
      destruct (decide (k = "")) as [|_]; [done|].
      destruct (New_key_size _ HP (sha256_Sum P (String.list_byte_of_string k)))
        as (a & Ha & _); [apply (sha256_size _ HP)|].
      rewrite Ha. unfold generateNewNonce, machine_of. simpl. rewrite Hrand.
      specialize (Hbs a Ha).
      assert (∃ n', ReadFull (NonceSize a) (ReadBytes bs :: r) = ((n', None), if NonceSize a is 0 then ReadBytes bs :: r else r)) as [n' ->].
      { unfold ReadFull. destruct (NonceSize a); [by eauto|].
        rewrite decide_True by done. eauto. }
      simpl. eexists _, _, _. split; [done|]. simpl.
      rewrite lookup_insert_eq. done.
Qed.

(** In a process without history, the store that [NewCryptoStore]
    returns satisfies the invariant of the history. *)
Lemma NewCryptoStore_inv (P : Primitives) (s : SH) key (w w' : World) l :
  maximum_ok → Primitives_ok P → events w = [] →
  NewCryptoStore P s key w = ((Some l, None), w') →
  ∃ c, cstores w' !! l = Some c ∧ machine_inv (machine_of c w').
Proof.
  intros [HM0 HM1] HP Hev. unfold NewCryptoStore.
  set (k := if decide (key = "") then _ else _). clearbody k.
  case_decide; [done|].
  destruct (New_key_size _ HP (sha256_Sum P (String.list_byte_of_string k)))
    as (a & Ha & Hok); [apply (sha256_size _ HP)|].
  rewrite Ha. unfold generateNewNonce, machine_of. simpl.
  destruct (ReadFull _ _) as [[n' [e|]] r'] eqn:Hread; [done|].
  pose proof (ReadFull_length _ _ _ _ Hread) as Hlen.
  intros [= <- <-]. eexists. split; [apply lookup_insert_eq|].
  rewrite Hev. split; simpl.
  - split; simpl; try done. lia.
  - done.
  - exists 0, [0]. split; [done|]. split; [lia|]. repeat constructor. lia.
  - intros [|e1 [|e2 h1]] h2 n count; simpl; intros [=].
Qed.

(** ** The read methods *)

(** What [decryptedMsg] does with a message whose payload is not nil. *)
Lemma decryptedMsg_spec cs l (w1 : World) msg c d :
  cstores w1 !! cs = Some c → messages w1 !! l = Some msg → Data msg = Some d →
  decryptedMsg cs l w1 =
    if decide (nonceSize c ≤ length d) then
      match Open (gcm c) (take (nonceSize c) d) (drop (nonceSize c) d) [] with
      | (_, Some e) => Done ((None, Some e), w1)
      | (dd, None) =>
        Done ((Some (fresh (dom (messages w1))), None),
              set_messages <[fresh (dom (messages w1)) := set_Data dd msg]> w1)
      end
    else Panic "slice bounds out of range".
Proof.
  intros Hcs Hmsg Hd. unfold decryptedMsg, decrypt_at, decrypt. rewrite Hmsg, Hcs, Hd.
  unfold len, elems. simpl. case_decide; [|done]. simpl.
  by destruct (Open _ _ _ _) as [dd [e|]].
Qed.

Ltac read_method Hinner Hmsg Hd :=
  simpl; rewrite Hinner; simpl; rewrite Hmsg;
  rewrite decide_False by (rewrite Hd; intros [?|?]; done);
  by erewrite decryptedMsg_spec.

(** C10. A message with a non-nil payload that the embedded store returned
    without error is not touched by [Lookup], [FirstMsg] and [LastMsg]:
    the decrypted message is a new object, equal to the stored one in every
    field but [Data], and nothing else in the world changes.  When [Open]
    rejects the payload no object is made, and a payload shorter than the
    nonce makes the slicing panic. *)
Theorem read_decrypts_into_copy (inner : MsgStore) cs seq (w w1 : World) l msg c d :
  cstores w1 !! cs = Some c → messages w1 !! l = Some msg → Data msg = Some d →
  ∃ result,
    (MsgStore_Lookup inner seq w = Done ((Some l, None), w1) →
     MsgStore_Lookup (CryptoMsgStore inner cs) seq w = result) ∧
    (MsgStore_FirstMsg inner w = Done ((Some l, None), w1) →
     MsgStore_FirstMsg (CryptoMsgStore inner cs) w = result) ∧
    (MsgStore_LastMsg inner w = Done ((Some l, None), w1) →
     MsgStore_LastMsg (CryptoMsgStore inner cs) w = result) ∧
    ((∃ l' dd, result = Done ((Some l', None), set_messages <[l' := set_Data dd msg]> w1) ∧
        nonceSize c ≤ length d ∧
        Open (gcm c) (take (nonceSize c) d) (drop (nonceSize c) d) [] = (dd, None) ∧
        l' ≠ l ∧ messages w1 !! l' = None ∧
        messages (set_messages <[l' := set_Data dd msg]> w1) !! l = Some msg ∧
        ∃ msg', messages (set_messages <[l' := set_Data dd msg]> w1) !! l' = Some msg' ∧
          Data msg' = dd ∧ Sequence msg' = Sequence msg ∧ Subject msg' = Subject msg ∧
          Reply msg' = Reply msg ∧ Timestamp msg' = Timestamp msg ∧
          Redelivered msg' = Redelivered msg ∧ CRC32 msg' = CRC32 msg) ∨
     (∃ dd e, result = Done ((None, Some e), w1) ∧ nonceSize c ≤ length d ∧
        Open (gcm c) (take (nonceSize c) d) (drop (nonceSize c) d) [] = (dd, Some e)) ∨
     (result = Panic "slice bounds out of range" ∧ length d < nonceSize c)).
Proof.
  intros Hcs Hmsg Hd. eexists. split_and!.
  - intros Hinner. read_method Hinner Hmsg Hd.
  - intros Hinner. read_method Hinner Hmsg Hd.
  - intros Hinner. read_method Hinner Hmsg Hd.
  - case_decide as Hlen; [|right; right; split; [done|lia]].
    destruct (Open _ _ _ _) as [dd [e|]] eqn:Hopen; [right; left; by eauto|left].
    set (l' := fresh (dom (messages w1))).
    assert (messages w1 !! l' = None) as Hfresh.
    { apply not_elem_of_dom, is_fresh. }
    assert (l' ≠ l) as Hne by congruence.
    eexists l', dd. split_and!; try done.
    + simpl. by rewrite lookup_insert_ne.
    + eexists. simpl. rewrite lookup_insert_eq. done.
Qed.

(** C6. A message whose payload is not nil but shorter than the nonce,
    the empty non-nil payload included, makes [Lookup], [FirstMsg] and
    [LastMsg] panic in [decrypt]. *)
Theorem short_payload_read_panics (inner : MsgStore) cs seq (w w1 : World) l msg c d :
  cstores w1 !! cs = Some c → messages w1 !! l = Some msg → Data msg = Some d →
  length d < nonceSize c →
  (MsgStore_Lookup inner seq w = Done ((Some l, None), w1) →
   MsgStore_Lookup (CryptoMsgStore inner cs) seq w = Panic "slice bounds out of range") ∧
  (MsgStore_FirstMsg inner w = Done ((Some l, None), w1) →
   MsgStore_FirstMsg (CryptoMsgStore inner cs) w = Panic "slice bounds out of range") ∧
  (MsgStore_LastMsg inner w = Done ((Some l, None), w1) →
   MsgStore_LastMsg (CryptoMsgStore inner cs) w = Panic "slice bounds out of range").
Proof.
  intros Hcs Hmsg Hd Hlen.
  assert (decryptedMsg cs l w1 = Panic "slice bounds out of range") as Hpanic.
  { erewrite decryptedMsg_spec by done. by rewrite decide_False by lia. }
  split_and!; intros Hinner; simpl; rewrite Hinner; simpl; rewrite Hmsg;
    by rewrite decide_False by (rewrite Hd; intros [?|?]; done).
Qed.

(** ** Channel creation and recovery *)

Local Abbreviation Channel := (@Channel MH SubStore).
Local Abbreviation RecoveredState := (@RecoveredState ServerInfo Client RecoveredSubscription).
Local Abbreviation RecoveredChannel := (@RecoveredChannel RecoveredSubscription).

(** The loop of [Recover] replaces the message store of every listed
    channel object and touches nothing else. *)
Lemma range_Channels_spec cs (rcs : list (string * option RecoveredChannel)) (w : World) :
  Forall (λ e, ∃ rc l, e.2 = Some rc ∧ rcChannel rc = Some l ∧
                       is_Some (channels w !! l)) rcs →
  NoDup (omap (λ e, e.2 ≫= rcChannel) rcs) →
  ∃ h', range_Channels cs rcs w = Done (set_channels (λ _, h') w) ∧
    (∀ l, l ∈ omap (λ e, e.2 ≫= rcChannel) rcs →
       ∃ ch, channels w !! l = Some ch ∧
             h' !! l = Some {| Subs := Subs ch; Msgs := CryptoMsgStore (Msgs ch) cs |}) ∧
    (∀ l, l ∉ omap (λ e, e.2 ≫= rcChannel) rcs → h' !! l = channels w !! l).
Proof.
  revert w. induction rcs as [|[name orc] rcs IH]; intros w Hall Hnd.
  - exists (channels w). split; [by destruct w|]. split; [|done].
    by intros l ?%elem_of_nil.
  - apply Forall_cons in Hall as [(rc & l & Horc & Hl & [ch Hch]) Hall].
    simpl in Horc. subst orc. simpl in Hnd. rewrite Hl in Hnd. simpl in Hnd.
    apply NoDup_cons in Hnd as [Hnotin Hnd].
    set (w2 := set_channels <[l := set_Msgs (CryptoMsgStore (Msgs ch) cs) ch]> w).
    destruct (IH w2) as (h' & Hrun & Hin & Hout); [|done|].
    { eapply Forall_impl; [done|]. intros e (rc' & l' & ? & Hl' & Hsome).
      exists rc', l'. split_and!; [done..|]. simpl.
      destruct (decide (l = l')) as [->|Hne];
        [by rewrite lookup_insert_eq|by rewrite lookup_insert_ne]. }
    exists h'. split_and!.
    + simpl. rewrite Hl, Hch. simpl. fold w2. rewrite Hrun. by destruct w.
    + simpl. rewrite Hl. simpl. intros l' [->|Hl']%elem_of_cons.
      * exists ch. split; [done|]. rewrite Hout by done. simpl.
        by rewrite lookup_insert_eq.
      * destruct (Hin l' Hl') as (ch' & Hch' & Hh'). exists ch'. split; [|done].
        simpl in Hch'. rewrite lookup_insert_ne in Hch'; [done|].
        by intros ->.
    + simpl. rewrite Hl. simpl. intros l' [Hne Hl']%not_elem_of_cons.
      rewrite Hout by done. simpl. by rewrite lookup_insert_ne.
Qed.

(** C9. [CreateChannel] and [Recover] call the wrapped store with the
    mutex held and pass its error on.  On success [CreateChannel] replaces
    the message store of the returned channel object by a [CryptoMsgStore]
    around the old one, bound to this store; [Recover] does so for the
    channel object of every recovered channel and returns the recovered
    state as it got it.  Nothing else in the world differs from what the
    wrapped store left, but for the released mutex. *)
Theorem intercepted_operations_frame cs (w : World) c0 :
  cstores w !! cs = Some c0 → mu c0 = false →
  (∀ channel c err w1,
     impl_CreateChannel impl (Store c0) channel (set_cstores <[cs := set_mu true c0]> w)
       = ((c, err), w1) →
     match err, c with
     | Some e, _ => CreateChannel impl cs channel w = Done ((None, Some e), Unlock cs w1)
     | None, None => CreateChannel impl cs channel w = Panic nil_dereference
     | None, Some l =>
       ∀ ch, channels w1 !! l = Some ch →
         CreateChannel impl cs channel w =
           Done ((Some l, None),
                 Unlock cs (set_channels
                   <[l := {| Subs := Subs ch; Msgs := CryptoMsgStore (Msgs ch) cs |}]> w1))
     end) ∧
  (∀ rs err w1,
     impl_Recover impl (Store c0) (set_cstores <[cs := set_mu true c0]> w) = ((rs, err), w1) →
     match rs, err with
     | Some rs', None =>
       recovered_ok rs' w1 →
       ∃ h', Recover impl cs w = Done ((Some rs', None), Unlock cs (set_channels (λ _, h') w1)) ∧
         (∀ l, l ∈ recovered_channels rs' →
            ∃ ch, channels w1 !! l = Some ch ∧
                  h' !! l = Some {| Subs := Subs ch; Msgs := CryptoMsgStore (Msgs ch) cs |}) ∧
         (∀ l, l ∉ recovered_channels rs' → h' !! l = channels w1 !! l)
     | _, _ => Recover impl cs w = Done ((rs, err), Unlock cs w1)
     end).
Proof.
  intros Hcs Hmu. split.
  - intros channel c err w1 Himpl. unfold CreateChannel, Lock.
    rewrite Hcs, Hmu. simpl. rewrite lookup_insert_eq. simpl. rewrite Himpl.
    destruct err as [e|]; [done|]. destruct c as [l|]; [|done].
    intros ch Hch. by rewrite Hch.
  - intros rs err w1 Himpl. unfold Recover, Lock.
    rewrite Hcs, Hmu. simpl. rewrite lookup_insert_eq. simpl. rewrite Himpl.
    destruct rs as [rs'|]; [|done]. destruct err as [e|]; [done|].
    intros [Hall Hnd].
    destruct (range_Channels_spec cs (map_to_list (Channels rs')) w1)
      as (h' & Hrun & Hin & Hout); [|done|].
    { apply Forall_forall. intros [name orc] Hin%elem_of_map_to_list. by eapply Hall. }
    exists h'. rewrite Hrun. done.
Qed.

End CryptoStoreProperties.

(** ** The reference instance keeps the contracts *)

Lemma to_N_byte_of n : Byte.to_N (Reference.byte_of n) = (n mod 256)%N.
Proof.
  unfold Reference.byte_of.
  destruct (Byte.of_N (n mod 256)) as [b|] eqn:Hb.
  - simpl. by apply Byte.to_of_N.
  - apply Byte.of_N_None_iff in Hb.
    pose proof (N.mod_upper_bound n 256 ltac:(done)). lia.
Qed.

Lemma byte_of_to_N b : Reference.byte_of (Byte.to_N b) = b.
Proof.
  unfold Reference.byte_of. pose proof (Byte.to_N_bounded b).
  rewrite N.mod_small by lia. by rewrite Byte.of_to_N.
Qed.

Lemma unshift_shift k b : Reference.unshift k (Reference.shift k b) = b.
Proof.
  unfold Reference.unshift, Reference.shift. rewrite to_N_byte_of.
  pose proof (Byte.to_N_bounded b). pose proof (Byte.to_N_bounded k).
  rewrite <-(byte_of_to_N b) at 2. unfold Reference.byte_of. do 2 f_equal.
  destruct (decide (Byte.to_N b + Byte.to_N k < 256)%N).
  - rewrite (N.mod_small (_ + _)) by lia.
    replace (Byte.to_N b + Byte.to_N k + 256 - Byte.to_N k)%N
      with (Byte.to_N b + 1 * 256)%N by lia.
    by rewrite N.Div0.mod_add.
  - replace (Byte.to_N b + Byte.to_N k)%N
      with ((Byte.to_N b + Byte.to_N k - 256) + 1 * 256)%N by lia.
    rewrite N.Div0.mod_add, (N.mod_small (Byte.to_N b + Byte.to_N k - 256)) by lia.
    f_equal. lia.
Qed.

Lemma unshift_shift_all k (p : list byte) :
  Reference.unshift k <$> (Reference.shift k <$> p) = p.
Proof. induction p as [|b p IH]; [done|]. by rewrite !fmap_cons, unshift_shift, IH. Qed.

Lemma shift_aead_ok key : AEAD_ok (Reference.shift_aead key).
Proof.
  split; simpl.
  - intros n p ad _. unfold Reference.tag.
    rewrite length_app, length_fmap, length_replicate. done.
  - intros n p ad _.
    set (c := Reference.shift (Reference.checksum (key ++ n)) <$> p).
    assert (length (c ++ Reference.tag key n c ad) - 16 = length c) as Hlen.
    { unfold Reference.tag. rewrite length_app, length_replicate. lia. }
    rewrite decide_False; last first.
    { unfold Reference.tag. rewrite length_app, length_replicate. lia. }
    rewrite Hlen, take_app_length, drop_app_length, decide_True by done.
    eexists. split; [done|]. unfold c. rewrite unshift_shift_all. by destruct p.
Qed.

Lemma primitives_ok : Primitives_ok Reference.primitives.
Proof.
  split; simpl.
  - intros k. unfold Reference.pad_digest.
    rewrite length_take, length_app, length_replicate. lia.
  - intros k Hk. rewrite decide_True by done. eauto using shift_aead_ok.
Qed.

(** ** The statements on the reference instance *)

Lemma maximum_three : maximum_ok 3.
Proof. split; lia. Qed.

Lemma store1_wf e : (0 ≤ e ≤ 3)%Z → cs_wf 3 (Reference.store1 e).
Proof. intros He. split; simpl; try done. apply shift_aead_ok. Qed.

Lemma machine1_inv r : machine_inv 3 (Reference.machine1 0 r).
Proof.
  split; simpl.
  - apply store1_wf. lia.
  - done.
  - exists 0, [0]. split; [done|]. split; [lia|]. repeat constructor. lia.
  - intros [|e1 [|e2 h1]] h2 n count; simpl; intros [=].
Qed.

Lemma decrypt_encrypt_witness :
  maximum_ok 3 ∧ cs_ok 3 (cstore (Reference.machine1 0 [])) ∧ Reference.msg0 ≠ [] ∧
  ((∃ buf m', encrypt 3 1 (Some Reference.msg0) (Reference.machine1 0 []) =
                Done ((buf, None), m') ∧
              decrypt (cstore m') buf = Done (Some Reference.msg0, None)) ∨
   (∃ err m', encrypt 3 1 (Some Reference.msg0) (Reference.machine1 0 []) =
                Done ((None, Some err), m') ∧
      (encrypted (cstore (Reference.machine1 0 [])) + 1 = 3)%Z ∧
      (ReadFull (NonceSize (gcm (cstore (Reference.machine1 0 []))))
         (rand_Reader (Reference.machine1 0 []))).1.2 = Some err)).
Proof.
  assert (cs_ok 3 (cstore (Reference.machine1 0 []))) as Hok.
  { split; [apply store1_wf|]; simpl; lia. }
  assert (Reference.msg0 ≠ []) as Hne by done.
  split_and!; [apply maximum_three|done..|].
  apply (decrypt_encrypt 3 0 Reference.msg0 (Reference.machine1 0 []) maximum_three Hok Hne).
Defined.

Lemma nonce_use_bounded_witness :
  maximum_ok 3 ∧ machine_inv 3 (Reference.machine1 0 [ReadBytes Reference.nonce2]) ∧
  Forall (λ c, no_overflow 3 c.1)
    [(1, Some Reference.msg0); (1, Some Reference.msg0); (1, Some Reference.msg0);
     (1, Some Reference.msg0)] ∧
  seals_per_nonce
    (history (encrypt_all 3
       [(1, Some Reference.msg0); (1, Some Reference.msg0); (1, Some Reference.msg0);
        (1, Some Reference.msg0)]
       (Reference.machine1 0 [ReadBytes Reference.nonce2]))) = [2; 2; 0] ∧
  Forall (λ u, (Z.of_nat u ≤ 3)%Z)
    (seals_per_nonce
       (history (encrypt_all 3
          [(1, Some Reference.msg0); (1, Some Reference.msg0); (1, Some Reference.msg0);
           (1, Some Reference.msg0)]
          (Reference.machine1 0 [ReadBytes Reference.nonce2])))).
Proof.
  assert (Forall (λ c : nat * bytes, no_overflow 3 c.1)
    [(1, Some Reference.msg0); (1, Some Reference.msg0); (1, Some Reference.msg0);
     (1, Some Reference.msg0)]) as Hcalls.
  { repeat constructor; unfold no_overflow; simpl; lia. }
  split_and!; [apply maximum_three|apply machine1_inv|done|by vm_compute|].
  apply (nonce_use_bounded 3 _ _ maximum_three (machine1_inv _) Hcalls).
Defined.

Lemma sealed_record_layout_witness :
  maximum_ok 3 ∧ cs_ok 3 (cstore (Reference.machine1 0 [])) ∧
  ((∃ buf m', encrypt 3 1 (Some Reference.msg0) (Reference.machine1 0 []) =
                Done ((Some buf, None), m') ∧
      buf = nonce (cstore m') ++
            Seal (gcm (cstore (Reference.machine1 0 []))) (nonce (cstore m'))
              (elems (Some Reference.msg0)) [] ∧
      length (nonce (cstore m')) = nonceSize (cstore (Reference.machine1 0 [])) ∧
      length buf = nonceSize (cstore (Reference.machine1 0 [])) + len (Some Reference.msg0) +
                   cryptoOverhead (cstore (Reference.machine1 0 []))) ∨
   (∃ err m', encrypt 3 1 (Some Reference.msg0) (Reference.machine1 0 []) =
                Done ((None, Some err), m') ∧
      (encrypted (cstore (Reference.machine1 0 [])) + 1 = 3)%Z ∧
      (ReadFull (NonceSize (gcm (cstore (Reference.machine1 0 []))))
         (rand_Reader (Reference.machine1 0 []))).1.2 = Some err)) ∧
  MsgStore_Store 3 Reference.memory_store 1
    (CryptoMsgStore (Wrapped 1%positive) 1%positive) (Some []) Reference.world2 =
  MsgStore_Store 3 Reference.memory_store 1 (Wrapped 1%positive) (Some []) Reference.world2.
Proof.
  assert (cs_ok 3 (cstore (Reference.machine1 0 []))) as Hok.
  { split; [apply store1_wf|]; simpl; lia. }
  destruct (sealed_record_layout 3 Reference.memory_store 0 (Some Reference.msg0)
              (Reference.machine1 0 []) (Wrapped 1%positive) 1%positive Reference.world2
              maximum_three Hok) as [Hlayout Hempty].
  exact (conj maximum_three (conj Hok (conj Hlayout (Hempty 1 (Some []) eq_refl)))).
Defined.

Lemma failed_rotation_is_not_retried_witness :
  maximum_ok 3 ∧ cs_wf 3 (cstore (Reference.machine1 2 [])) ∧
  ∃ m', encrypt 3 1 (Some Reference.msg0) (Reference.machine1 2 []) =
          Done ((None, Some (LibError EOF)), m') ∧
    mu (cstore m') = false ∧
    history m' = history (Reference.machine1 2 []) ∧
    ∀ fuel' data', no_overflow 3 fuel' → encrypt 3 fuel' data' m' = Spin.
Proof.
  assert (cs_wf 3 (cstore (Reference.machine1 2 []))) as Hwf.
  { apply store1_wf. lia. }
  split_and!; [apply maximum_three|done|].
  apply (failed_rotation_is_not_retried 3 0 (Some Reference.msg0) (Reference.machine1 2 [])
           (make 12) (LibError EOF) [] maximum_three Hwf eq_refl eq_refl).
Defined.

Lemma NewCryptoStore_requires_key_witness :
  (NewCryptoStore Reference.primitives tt "" (Reference.boot None [])).1.2
    = Some ErrCryptoStoreRequiresKey ∧
  ∃ l w' c,
    NewCryptoStore Reference.primitives tt ""
      (Reference.boot (Some "ivan") [ReadBytes Reference.nonce1]) = ((Some l, None), w') ∧
    cstores w' !! l = Some c ∧ Store c = tt.
Proof.
  split.
  - apply (NewCryptoStore_requires_key Reference.primitives tt "" (Reference.boot None [])).
    split; [done|by left].
  - destruct (NewCryptoStore_requires_key Reference.primitives tt ""
                (Reference.boot (Some "ivan") [ReadBytes Reference.nonce1])) as [_ Hk].
    destruct (Hk "ivan" eq_refl eq_refl ltac:(done)) as [_ Hs].
    apply (Hs primitives_ok Reference.nonce1 [] eq_refl).
    intros a. simpl. intros [= <-]. simpl. done.
Defined.

Lemma short_payload_read_panics_witness :
  cstores Reference.world_short !! 1%positive = Some (Reference.store1 0) ∧
  messages Reference.world_short !! 1%positive
    = Some (Reference.envelope 1 (Some Reference.hello)) ∧
  length Reference.hello < nonceSize (Reference.store1 0) ∧
  MsgStore_Lookup Reference.memory_store Reference.foo_Msgs 1 Reference.world_short
    = Panic "slice bounds out of range" ∧
  MsgStore_FirstMsg Reference.memory_store Reference.foo_Msgs Reference.world_short
    = Panic "slice bounds out of range" ∧
  MsgStore_LastMsg Reference.memory_store Reference.foo_Msgs Reference.world_short
    = Panic "slice bounds out of range".
Proof.
  assert (cstores Reference.world_short !! 1%positive = Some (Reference.store1 0)) as Hcs
    by (vm_compute; reflexivity).
  assert (messages Reference.world_short !! 1%positive
          = Some (Reference.envelope 1 (Some Reference.hello))) as Hmsg
    by (vm_compute; reflexivity).
  assert (length Reference.hello < nonceSize (Reference.store1 0)) as Hlen
    by (vm_compute; lia).
  destruct (short_payload_read_panics Reference.memory_store (Wrapped 1%positive) 1%positive 1
              Reference.world_short Reference.world_short 1%positive _ _ _
              Hcs Hmsg eq_refl Hlen) as (HL & HF & HLa).
  split_and!; [done..|apply HL|apply HF|apply HLa]; vm_compute; reflexivity.
Defined.

Lemma read_decrypts_into_copy_witness :
  cstores Reference.world3 !! 1%positive = Some (Reference.store1 1) ∧
  messages Reference.world3 !! 1%positive
    = Some (Reference.envelope 1
              (Some (Reference.nonce1 ++
                     Seal (gcm (Reference.store1 0)) Reference.nonce1 Reference.msg0 []))) ∧
  ∃ l' w',
    MsgStore_Lookup Reference.memory_store Reference.foo_Msgs 1 Reference.world3
      = Done ((Some l', None), w') ∧
    l' ≠ 1%positive ∧
    messages w' !! 1%positive = messages Reference.world3 !! 1%positive ∧
    messages w' !! l' = Some (Reference.envelope 1 (Some Reference.msg0)).
Proof.
  assert (cstores Reference.world3 !! 1%positive = Some (Reference.store1 1)) as Hcs
    by (vm_compute; reflexivity).
  assert (messages Reference.world3 !! 1%positive
          = Some (Reference.envelope 1
                    (Some (Reference.nonce1 ++
                           Seal (gcm (Reference.store1 0)) Reference.nonce1
                             Reference.msg0 [])))) as Hmsg
    by (vm_compute; reflexivity).
  split_and!; [done..|].
  destruct (read_decrypts_into_copy Reference.memory_store (Wrapped 1%positive) 1%positive 1
              Reference.world3 Reference.world3 1%positive _ _ _ Hcs Hmsg eq_refl)
    as (result & HL & _ & _ & Hcases).
  unfold Reference.foo_Msgs. rewrite (HL ltac:(vm_compute; reflexivity)).
  destruct Hcases as [(l' & dd & -> & _ & Hopen & Hne & _ & Hold & msg' & Hnew & Hdata)
                     |[(dd & e & _ & _ & Hopen)|[_ Hlen]]].
  - eexists _, _. split; [reflexivity|]. split; [done|]. split; [rewrite Hmsg; exact Hold|].
    vm_compute in Hopen. injection Hopen as <-.
    simpl. by rewrite lookup_insert_eq.
  - vm_compute in Hopen. discriminate.
  - vm_compute in Hlen. lia.
Defined.

Lemma intercepted_operations_frame_witness :
  cstores Reference.world1 !! 1%positive = Some (Reference.store1 0) ∧
  cstores Reference.world_foo !! 1%positive = Some (Reference.store1 0) ∧
  mu (Reference.store1 0) = false ∧
  (∃ w', CreateChannel Reference.memory_store 1%positive "foo" Reference.world1
           = Done ((Some 1%positive, None), w') ∧
         channels w' !! 1%positive
           = Some {| Subs := tt; Msgs := CryptoMsgStore (Wrapped 1%positive) 1%positive |}) ∧
  (∃ rs w', Recover Reference.memory_store 1%positive Reference.world_foo
              = Done ((Some rs, None), w') ∧
            recovered_channels rs = [1%positive] ∧
            channels w' !! 1%positive
              = Some {| Subs := tt; Msgs := CryptoMsgStore (Wrapped 1%positive) 1%positive |}).
Proof.
  assert (cstores Reference.world1 !! 1%positive = Some (Reference.store1 0)) as Hcs1
    by (vm_compute; reflexivity).
  assert (cstores Reference.world_foo !! 1%positive = Some (Reference.store1 0)) as Hcs2
    by (vm_compute; reflexivity).
  split_and!; [done..| |].
  - destruct (intercepted_operations_frame Reference.memory_store 1%positive
                Reference.world1 (Reference.store1 0) Hcs1 eq_refl) as [Hcreate _].
    pose proof (Hcreate "foo" (Some 1%positive) None _ eq_refl
                  {| Subs := tt; Msgs := Wrapped 1%positive |}
                  ltac:(vm_compute; reflexivity)) as ->.
    eexists. split; [reflexivity|]. simpl. by rewrite lookup_insert_eq.
  - destruct (intercepted_operations_frame Reference.memory_store 1%positive
                Reference.world_foo (Reference.store1 0) Hcs2 eq_refl) as [_ Hrecover].
    specialize (Hrecover _ None _ eq_refl). simpl in Hrecover.
    destruct Hrecover as (h' & -> & Hin & _).
    { split.
      - intros name orc. simpl. rewrite lookup_fmap.
        replace (Reference.registry (wrapped Reference.world_foo))
          with ({[ "foo" := 1%positive ]} : gmap string loc) by (vm_compute; reflexivity).
        destruct (decide (name = "foo")) as [->|Hne].
        + rewrite lookup_singleton_eq. simpl. intros [= <-].
          eexists _, 1%positive. split_and!; [done..|].
          vm_compute. by eexists.
        + by rewrite lookup_singleton_ne.
      - vm_compute. apply NoDup_singleton. }
    eexists _, _. split; [reflexivity|]. split; [by vm_compute|].
    destruct (Hin 1%positive) as (ch & Hch & Hh'); [vm_compute; apply list_elem_of_here|].
    vm_compute in Hch. injection Hch as <-. exact Hh'.
Defined.

(** C4, on the reference instance.  A nil payload goes through [Store]
    and the read methods untouched.  An empty payload that is not nil goes
    through [Store] untouched too ([len(data) == 0]), but the read methods
    test [m.Data == nil] and hand the stored message to [decrypt], which
    panics. *)
Theorem empty_payload_read_panics :
  MsgStore_Store 3 Reference.memory_store 1 Reference.foo_Msgs None Reference.world2
    = Done ((1%N, None), Reference.world_nil) ∧
  messages Reference.world_nil !! 1%positive = Some (Reference.envelope 1 None) ∧
  MsgStore_Lookup Reference.memory_store Reference.foo_Msgs 1 Reference.world_nil
    = Done ((Some 1%positive, None), Reference.world_nil) ∧
  MsgStore_Store 3 Reference.memory_store 1 Reference.foo_Msgs (Some []) Reference.world2
    = Done ((1%N, None), Reference.world_empty) ∧
  messages Reference.world_empty !! 1%positive = Some (Reference.envelope 1 (Some [])) ∧
  MsgStore_Lookup Reference.memory_store Reference.foo_Msgs 1 Reference.world_empty
    = Panic "slice bounds out of range" ∧
  MsgStore_FirstMsg Reference.memory_store Reference.foo_Msgs Reference.world_empty
    = Panic "slice bounds out of range" ∧
  MsgStore_LastMsg Reference.memory_store Reference.foo_Msgs Reference.world_empty
    = Panic "slice bounds out of range".
Proof. split_and!; vm_compute; reflexivity. Qed.
